(** * TSAR: defined-memory analysis and memory-access enumeration

    A shallow embedding of
    - [DefinedMemory.h]: [DefUseSet], [DefinitionInfo] and
      [DataFlowTraits<PrivateDFFwk *>];
    - [MemoryAccessUtils.h]: [AccessInfo] and [for_each_memory].

    LLVM values, instructions and call sites are records of the observations
    the two headers make of them.  Sets of pointers are [gset]s. *)

From stdpp Require Import base decidable countable strings list gmap sets.

Set Default Proof Using "Type".

(** ** LLVM values and memory locations *)

Module LLVM.

(** What [isValidPtr] asks of a pointer: [isa<UndefValue>],
    [dyn_cast<ConstantPointerNull>] with the address space of its type, or
    any other value (named by [valueId]). *)
Inductive ValueKind :=
| UndefValue
| ConstantPointerNull (AddressSpace : N)
| OtherValue (valueId : positive).

Record Value := mkValue {
  getKind : ValueKind;
  (** [getType()->isPointerTy()] *)
  isPointerTy : bool
}.

(** [llvm::MemoryLocation]: [Ptr], [Size] and [AATags]. *)
Record MemoryLocation := mkLoc {
  Ptr : Value;
  Size : N;
  AATags : N
}.

#[global] Instance ValueKind_eq_dec : EqDecision ValueKind.
Proof. solve_decision. Defined.

#[global] Instance ValueKind_countable : Countable ValueKind.
Proof.
  refine (inj_countable'
    (λ k, match k with
          | UndefValue => inl ()
          | ConstantPointerNull a => inr (inl a)
          | OtherValue p => inr (inr p)
          end)
    (λ s, match s with
          | inl _ => UndefValue
          | inr (inl a) => ConstantPointerNull a
          | inr (inr p) => OtherValue p
          end) _).
  by intros [].
Defined.

#[global] Instance Value_eq_dec : EqDecision Value.
Proof. solve_decision. Defined.

#[global] Instance Value_countable : Countable Value.
Proof.
  refine (inj_countable' (λ v, (getKind v, isPointerTy v))
                         (λ p, mkValue p.1 p.2) _).
  by intros [].
Defined.

#[global] Instance MemoryLocation_eq_dec : EqDecision MemoryLocation.
Proof. solve_decision. Defined.

#[global] Instance MemoryLocation_countable : Countable MemoryLocation.
Proof.
  refine (inj_countable' (λ l, (Ptr l, Size l, AATags l))
                         (λ t, mkLoc t.1.1 t.1.2 t.2) _).
  by intros [].
Defined.

(** [llvm::Function], as far as the headers look at it: its identity and
    the answer of [llvm::NullPointerIsDefined(F, AS)]. *)
Record Function := mkFunction {
  functionId : positive;
  NullPointerIsDefined : N → bool
}.

Definition IntrinsicID := N.
Definition LibFunc := N.

(** [llvm::CallSite]. *)
Record CallSite := mkCallSite {
  (** [dyn_cast<Function>(CS.getCalledValue()->stripPointerCasts())] *)
  getCalledFunction : option Function;
  (** [dyn_cast<IntrinsicInst>(CS.getInstruction())], with [getIntrinsicID()] *)
  getIntrinsicID : option IntrinsicID;
  arg_size : nat;
  getArgument : nat → Value;
  doesNotReadMemory : bool;
  onlyReadsMemory : bool;
  onlyAccessesArgMemory : bool
}.

(** The opcodes [for_each_memory] switches on; every other opcode takes the
    [default:] label. *)
Inductive Opcode :=
| Load | VAArg | AtomicRMW | AtomicCmpXchg | Store | Call | Invoke
| OtherOpcode (n : nat).

#[global] Instance Opcode_eq_dec : EqDecision Opcode.
Proof. solve_decision. Defined.

(** [llvm::Instruction].  [instId] stands for the address of the instruction,
    which is what a [SmallPtrSet<Instruction *>] compares.
    [getPointerOperand], [getAccessSize] and [getAAMetadata] are what
    [MemoryLocation::get(&I)] reads: the pointer is operand 0 of a load,
    va_arg, atomicrmw or cmpxchg and operand 1 of a store, as the assertions
    of [for_each_memory] say. *)
Record Instruction := mkInstruction {
  instId : positive;
  getFunction : Function;
  getOpcode : Opcode;
  mayReadFromMemory : bool;
  mayWriteToMemory : bool;
  getPointerOperand : Value;
  getAccessSize : N;
  getAAMetadata : N;
  (** [CallSite(&I)], for a call or an invoke *)
  getCallSite : CallSite
}.

Definition mayReadOrWriteMemory (I : Instruction) : bool :=
  mayReadFromMemory I || mayWriteToMemory I.

(** [MemoryLocation::get(&I)]. *)
Definition MemoryLocation_get (I : Instruction) : MemoryLocation :=
  mkLoc (getPointerOperand I) (getAccessSize I) (getAAMetadata I).

(** [llvm::TargetLibraryInfo]: [getLibFunc] on the callee, and the size and
    the alias tags that [MemoryLocation::getForArgument] works out for an
    argument. *)
Record TargetLibraryInfo := mkTLI {
  getLibFunc : Function → option LibFunc;
  getArgumentExtent : CallSite → nat → N * N
}.

(** [MemoryLocation::getForArgument(CS, Idx, TLI)]: the location pointed to by
    actual parameter [Idx]. *)
Definition MemoryLocation_getForArgument
    (CS : CallSite) (Idx : nat) (TLI : TargetLibraryInfo) : MemoryLocation :=
  mkLoc (getArgument CS Idx)
        (getArgumentExtent TLI CS Idx).1 (getArgumentExtent TLI CS Idx).2.

Definition BasicBlock := list Instruction.

(** The body of a function: its basic blocks, in order. *)
Definition FunctionBody := list BasicBlock.

(** [make_range(inst_begin(F), inst_end(F))]: the instructions of all blocks,
    in order. *)
Definition instructions (F : FunctionBody) : list Instruction := concat F.

End LLVM.

Export LLVM.

(** ** Location sets and data-flow values ([tsar_df_location.h]) *)

(** Modelled from the spec: [LocationSet] of [tsar_df_location.h], which is
    not among the sources.  The specification describes it as a set of
    memory locations, insertion order irrelevant, with [contain] (exact
    membership), [overlap] (some member may overlap the location) and
    [insert] (returns whether the set changed). *)
Module LocationSet.

Abbreviation t := (gset MemoryLocation).

(** Modelled from the spec: [LocationSet::contain], exact membership. *)
Definition contain (S : t) (Loc : MemoryLocation) : bool :=
  bool_decide (Loc ∈ S).

(** Modelled from the spec: [LocationSet::overlap], true if any member may
    overlap [Loc].  [mayOverlap] decides whether two locations may overlap;
    the set takes that decision from outside. *)
Definition overlap (mayOverlap : MemoryLocation → MemoryLocation → bool)
    (S : t) (Loc : MemoryLocation) : bool :=
  existsb (λ M, mayOverlap M Loc) (elements S).

(** Modelled from the spec: [LocationSet::insert]; the second component
    tells whether the set changed, like the [.second] of the pair that
    [DefUseSet] reads. *)
Definition insert (Loc : MemoryLocation) (S : t) : t * bool :=
  ({[Loc]} ∪ S, bool_decide (Loc ∉ S)).

End LocationSet.

(** Modelled from the spec: [LocationDFValue] of [tsar_df_location.h], a
    location set used as a lattice value.  It is either the full universe
    ("every location", the identity of intersection) or a finite set. *)
Module LocationDFValue.

Inductive t :=
| Full
| Mask (Locs : LocationSet.t).

(** Modelled from the spec: [LocationDFValue::fullValue()]. *)
Definition fullValue : t := Full.

(** Modelled from the spec: [LocationDFValue::emptyValue()]. *)
Definition emptyValue : t := Mask ∅.

(** Modelled from the spec: membership of a location in a data-flow value. *)
Definition exist (V : t) (Loc : MemoryLocation) : bool :=
  match V with
  | Full => true
  | Mask Locs => bool_decide (Loc ∈ Locs)
  end.

(** Modelled from the spec: [this->intersect(With)], keep only the members
    present in both. *)
Definition intersect (This With : t) : t :=
  match This, With with
  | Full, _ => With
  | _, Full => This
  | Mask A, Mask B => Mask (A ∩ B)
  end.

(** Modelled from the spec: [this->merge(With)], union. *)
Definition merge (This With : t) : t :=
  match This, With with
  | Full, _ => Full
  | _, Full => Full
  | Mask A, Mask B => Mask (A ∪ B)
  end.

End LocationDFValue.

(** ** [DefinitionInfo] and [DataFlowTraits<PrivateDFFwk *>] *)

Module PrivateDF.

(** [struct DefinitionInfo]. *)
Record DefinitionInfo := mkDI {
  MustReach : LocationDFValue.t;
  MayReach : LocationDFValue.t
}.

Abbreviation ValueType := DefinitionInfo.

Section traits.
(** [PrivateDFFwk *] and [GraphType = Forward<DFRegion *>]: passed to every
    trait and ignored by the ones below. *)
Context {PrivateDFFwk GraphType : Type}.

(** Both fields of the local [DI] are assigned before it is returned. *)
Definition topElement (_ : PrivateDFFwk) (_ : GraphType) : ValueType :=
  {| MustReach := LocationDFValue.fullValue;
     MayReach := LocationDFValue.emptyValue |}.

Definition boundaryCondition (_ : PrivateDFFwk) (_ : GraphType) : ValueType :=
  {| MustReach := LocationDFValue.emptyValue;
     MayReach := LocationDFValue.emptyValue |}.

(** [meetOperator(LHS, RHS, _, _)] updates [RHS] in place; the embedding
    returns the new [RHS]. *)
Definition meetOperator (LHS RHS : ValueType)
    (_ : PrivateDFFwk) (_ : GraphType) : ValueType :=
  let RHS :=
    mkDI (LocationDFValue.intersect (MustReach RHS) (MustReach LHS))
         (MayReach RHS) in
  let RHS :=
    mkDI (MustReach RHS)
         (LocationDFValue.merge (MayReach RHS) (MayReach LHS)) in
  RHS.
End traits.

End PrivateDF.

Export PrivateDF.

(** ** [DefUseSet] *)

Module DefUse.

(** The outcome of a member function that opens with [assert]s: it returns,
    or an assertion stops the program with its message, or a call into LLVM
    that has nothing to give back does not return. *)
Inductive Checked (A : Type) :=
| Done (a : A)
| AssertionFailed (message : string)
| NoReturn.

Arguments Done {A} a.
Arguments AssertionFailed {A} message.
Arguments NoReturn {A}.

#[global] Instance Checked_ret : MRet Checked := λ A a, Done a.

#[global] Instance Checked_bind : MBind Checked := λ A B f m,
  match m with
  | Done a => f a
  | AssertionFailed message => AssertionFailed message
  | NoReturn => NoReturn
  end.

(** [assert(Cond && "message")]. *)
Definition assert (Cond : bool) (message : string) : Checked unit :=
  if Cond then Done () else AssertionFailed message.

(** [assert(P && "message")] on a pointer, which may be null. *)
Definition assertNotNull {A : Type} (P : option A) (message : string)
  : Checked A :=
  match P with
  | Some a => Done a
  | None => AssertionFailed message
  end.

Definition isAssertionFailed {A : Type} (r : Checked A) : bool :=
  match r with
  | Done _ | NoReturn => false
  | AssertionFailed _ => true
  end.

(** [llvm::MemoryLocation::get] on an instruction, as the member functions
    of [DefUseSet] call it, on any instruction: it has a location for a load,
    store, va_arg, cmpxchg or atomicrmw; for every other instruction it has
    none and does not return. *)
Definition MemoryLocation_get_inst (I : Instruction)
  : Checked MemoryLocation :=
  match getOpcode I with
  | Load | Store | VAArg | AtomicCmpXchg | AtomicRMW =>
      Done (MemoryLocation_get I)
  | Call | Invoke | OtherOpcode _ => NoReturn
  end.

(** [llvm::isa<llvm::StoreInst>(I)]. *)
Definition isa_StoreInst (I : Instruction) : bool :=
  bool_decide (getOpcode I = Store).

Section DefUseSet.
(** [llvm::AliasSetTracker] and its [add], applied to an instruction, are
    LLVM's; [add] returns whether a new alias set has been created. *)
Context {AliasSetTracker : Type}.
Variable AliasSetTracker_add :
  Instruction → AliasSetTracker → AliasSetTracker * bool.
(** The overlap decision [LocationSet::overlap] relies on. *)
Variable mayOverlap : MemoryLocation → MemoryLocation → bool.

Record DefUseSet := mkDefUseSet {
  mDefs : LocationSet.t;
  mMayDefs : LocationSet.t;
  mUses : LocationSet.t;
  mExplicitAccesses : AliasSetTracker;
  (** [PointerSet = SmallPtrSet<llvm::Value *, 64>] *)
  mAddressAccesses : gset Value;
  (** [InstructionSet = SmallPtrSet<llvm::Instruction *, 64>] *)
  mUnknownInsts : gset positive
}.

Definition getDefs (DU : DefUseSet) : LocationSet.t := mDefs DU.

Definition hasDef (DU : DefUseSet) (Loc : MemoryLocation) : bool :=
  LocationSet.contain (mDefs DU) Loc.

(** The member functions that change the set return the new set together
    with the C++ result. *)
Definition addDef (Loc : MemoryLocation) (DU : DefUseSet)
  : DefUseSet * bool :=
  let r := LocationSet.insert Loc (mDefs DU) in
  (mkDefUseSet r.1 (mMayDefs DU) (mUses DU) (mExplicitAccesses DU)
               (mAddressAccesses DU) (mUnknownInsts DU), r.2).

Definition addDef_inst (I : option Instruction) (DU : DefUseSet)
  : Checked (DefUseSet * bool) :=
  I ← assertNotNull I "Instruction must not be null!";
  _ ← assert (isa_StoreInst I)
        "Only store instructions produce must defined locations!";
  Loc ← MemoryLocation_get_inst I;
  mret (addDef Loc DU).

Definition getMayDefs (DU : DefUseSet) : LocationSet.t := mMayDefs DU.

Definition hasMayDef (DU : DefUseSet) (Loc : MemoryLocation) : bool :=
  LocationSet.overlap mayOverlap (mMayDefs DU) Loc.

Definition addMayDef (Loc : MemoryLocation) (DU : DefUseSet)
  : DefUseSet * bool :=
  let r := LocationSet.insert Loc (mMayDefs DU) in
  (mkDefUseSet (mDefs DU) r.1 (mUses DU) (mExplicitAccesses DU)
               (mAddressAccesses DU) (mUnknownInsts DU), r.2).

Definition addMayDef_inst (I : option Instruction) (DU : DefUseSet)
  : Checked (DefUseSet * bool) :=
  I ← assertNotNull I "Instruction must not be null!";
  _ ← assert (mayWriteToMemory I) "Instruction does not modify memory!";
  Loc ← MemoryLocation_get_inst I;
  mret (addMayDef Loc DU).

Definition getUses (DU : DefUseSet) : LocationSet.t := mUses DU.

Definition hasUse (DU : DefUseSet) (Loc : MemoryLocation) : bool :=
  LocationSet.overlap mayOverlap (mUses DU) Loc.

Definition addUse (Loc : MemoryLocation) (DU : DefUseSet)
  : DefUseSet * bool :=
  let r := LocationSet.insert Loc (mUses DU) in
  (mkDefUseSet (mDefs DU) (mMayDefs DU) r.1 (mExplicitAccesses DU)
               (mAddressAccesses DU) (mUnknownInsts DU), r.2).

Definition addUse_inst (I : option Instruction) (DU : DefUseSet)
  : Checked (DefUseSet * bool) :=
  I ← assertNotNull I "Instruction must not be null!";
  _ ← assert (mayReadFromMemory I) "Instruction does not read memory!";
  Loc ← MemoryLocation_get_inst I;
  mret (addUse Loc DU).

Definition getExplicitAccesses (DU : DefUseSet) : AliasSetTracker :=
  mExplicitAccesses DU.

Definition addExplicitAccess_inst (I : option Instruction) (DU : DefUseSet)
  : Checked (DefUseSet * bool) :=
  I ← assertNotNull I "Instruction must not be null!";
  _ ← assert (mayReadOrWriteMemory I)
        "Instruction does not read nor write memory!";
  let r := AliasSetTracker_add I (mExplicitAccesses DU) in
  mret (mkDefUseSet (mDefs DU) (mMayDefs DU) (mUses DU) r.1
                    (mAddressAccesses DU) (mUnknownInsts DU), r.2).

Definition getAddressAccesses (DU : DefUseSet) : gset Value :=
  mAddressAccesses DU.

Definition hasAddressAccess (DU : DefUseSet) (Ptr : option Value)
  : Checked bool :=
  Ptr ← assertNotNull Ptr "Pointer to memory location must not be null!";
  mret (bool_decide (Ptr ∈ mAddressAccesses DU)).

(** [SmallPtrSet::insert(Ptr).second] is true when [Ptr] was not in the set. *)
Definition addAddressAccess (Ptr : option Value) (DU : DefUseSet)
  : Checked (DefUseSet * bool) :=
  Ptr ← assertNotNull Ptr "Pointer to memory location must not be null!";
  mret (mkDefUseSet (mDefs DU) (mMayDefs DU) (mUses DU)
                    (mExplicitAccesses DU)
                    ({[Ptr]} ∪ mAddressAccesses DU) (mUnknownInsts DU),
        bool_decide (Ptr ∉ mAddressAccesses DU)).

Definition getUnknownInsts (DU : DefUseSet) : gset positive :=
  mUnknownInsts DU.

Definition hasUnknownInst (DU : DefUseSet) (I : option Instruction)
  : Checked bool :=
  I ← assertNotNull I "Instruction must not be null!";
  mret (bool_decide (instId I ∈ mUnknownInsts DU)).

Definition addUnknownInst (I : option Instruction) (DU : DefUseSet)
  : Checked (DefUseSet * bool) :=
  I ← assertNotNull I "Instruction must not be null!";
  mret (mkDefUseSet (mDefs DU) (mMayDefs DU) (mUses DU)
                    (mExplicitAccesses DU) (mAddressAccesses DU)
                    ({[instId I]} ∪ mUnknownInsts DU),
        bool_decide (instId I ∉ mUnknownInsts DU)).
End DefUseSet.

Arguments DefUseSet : clear implicits.

End DefUse.

Export DefUse.

(** ** [DefinedMemoryPass] *)

Module DefinedMemoryPass.

(** [tsar::DFNode *]: a node of the data-flow graph, by its identity. *)
Definition DFNode := positive.

(** [NodeToDUMap = DenseMap<DFNode *, DefUseSet *>]; the mapped pointer may be
    null. *)
Abbreviation NodeToDUMap AliasSetTracker :=
  (gmap DFNode (option (DefUseSet AliasSetTracker))).

Section pass.
Context {AliasSetTracker : Type}.

(** [getDefUseFor(N)]: the second assertion asks for an entry of [N] whose
    pointer is not null. *)
Definition getDefUseFor
    (N : option DFNode) (mNodeToDU : NodeToDUMap AliasSetTracker)
  : Checked (DefUseSet AliasSetTracker) :=
  N ← assertNotNull N "Node must not be null!";
  match mNodeToDU !! N with
  | Some (Some DU) => Done DU
  | Some None | None => AssertionFailed "Def-use set must be specified!"
  end.

(** [releaseMemory()]: every set is deleted and the map cleared. *)
Definition releaseMemory (mNodeToDU : NodeToDUMap AliasSetTracker)
  : NodeToDUMap AliasSetTracker := ∅.
End pass.

End DefinedMemoryPass.

Export DefinedMemoryPass.

(** ** [MemoryAccessUtils.h] *)

Module MemoryAccess.

(** Flags indicating assurance in memory access. *)
Inductive AccessInfo := No | May | Must.

#[global] Instance AccessInfo_eq_dec : EqDecision AccessInfo.
Proof. solve_decision. Defined.

(** [KnownFunctionTraits.h] is not among the sources.  Its three helpers are
    taken as parameters: [foreachIntrinsicMemArg(II, F)] and
    [foreachLibFuncMemArg(LibId, F)] are given by the indexes they pass to
    [F], in the order of the calls. *)
Class KnownFunctionTraits := {
  isMemoryMarkerIntrinsic : IntrinsicID → bool;
  foreachIntrinsicMemArg : Instruction → list nat;
  foreachLibFuncMemArg : LibFunc → list nat
}.

(** The lambda [isValidPtr], with the captured [F] as an argument. *)
Definition isValidPtr (F : Function) (Ptr : Value) : bool :=
  match getKind Ptr with
  | UndefValue => false
  | ConstantPointerNull AddressSpace =>
      if negb (NullPointerIsDefined F AddressSpace) then false else true
  | OtherValue _ => true
  end.

Section for_each_memory.
Context `{KnownFunctionTraits}.
(** The callbacks act on a state of the caller. *)
Context {St : Type}.
Variable TLI : TargetLibraryInfo.
Variable Func :
  Instruction → MemoryLocation → nat → AccessInfo → AccessInfo → St → St.
Variable UnknownFunc : Instruction → AccessInfo → AccessInfo → St → St.

(** The lambda [traverseActualParams]; [I] is [CS.getInstruction()]. *)
Definition traverseActualParams
    (I : Instruction) (CS : CallSite) (s : St) : St :=
  let F := getFunction I in
  let Callee := getCalledFunction CS in
  let s :=
    match getIntrinsicID CS with
    | Some II =>
        let IsMarker := isMemoryMarkerIntrinsic II in
        foldl (λ s Idx,
            let Loc := MemoryLocation_getForArgument CS Idx TLI in
            if negb (isValidPtr F (Ptr Loc)) then s
            else Func I Loc Idx
                   (if doesNotReadMemory CS || IsMarker then No else May)
                   (if onlyReadsMemory CS || IsMarker then No else May) s)
          s (foreachIntrinsicMemArg I)
    | None =>
        match Callee ≫= getLibFunc TLI with
        | Some LibId =>
            foldl (λ s Idx,
                let Loc := MemoryLocation_getForArgument CS Idx TLI in
                if negb (isValidPtr F (Ptr Loc)) then s
                else Func I Loc Idx
                       (if doesNotReadMemory CS then No else May)
                       (if onlyReadsMemory CS then No else May) s)
              s (foreachLibFuncMemArg LibId)
        | None =>
            foldl (λ s Idx,
                if negb (isPointerTy (getArgument CS Idx)) then s
                else
                  let Loc := MemoryLocation_getForArgument CS Idx TLI in
                  if negb (isValidPtr F (Ptr Loc)) then s
                  else Func I Loc Idx
                         (if doesNotReadMemory CS then No else May)
                         (if onlyReadsMemory CS then No else May) s)
              s (seq 0 (arg_size CS))
        end
    end in
  if negb (onlyAccessesArgMemory CS) then
    UnknownFunc I
      (if doesNotReadMemory CS then No else May)
      (if onlyReadsMemory CS then No else May) s
  else s.

(** [for_each_memory(llvm::Instruction &I, TLI, Func, UnknownFunc)]. *)
Definition for_each_memory (I : Instruction) (s : St) : St :=
  let F := getFunction I in
  match getOpcode I with
  | Load | VAArg | AtomicRMW | AtomicCmpXchg =>
      let Loc := MemoryLocation_get I in
      if negb (isValidPtr F (Ptr Loc)) then s
      else Func I Loc 0
             (if mayReadFromMemory I then Must else No)
             (if mayWriteToMemory I then Must else No) s
  | Store =>
      let Loc := MemoryLocation_get I in
      if negb (isValidPtr F (Ptr Loc)) then s
      else Func I (MemoryLocation_get I) 1 No Must s
  | Call | Invoke => traverseActualParams I (getCallSite I) s
  | OtherOpcode _ =>
      if negb (mayReadOrWriteMemory I) then s
      else UnknownFunc I
             (if mayReadFromMemory I then May else No)
             (if mayWriteToMemory I then May else No) s
  end.

(** [for_each_memory(llvm::Function &F, ...)]. *)
Definition for_each_memory_function (F : FunctionBody) (s : St) : St :=
  foldl (λ s I, for_each_memory I s) s (instructions F).

(** [for_each_memory(llvm::BasicBlock &BB, ...)]. *)
Definition for_each_memory_block (BB : BasicBlock) (s : St) : St :=
  foldl (λ s I, for_each_memory I s) s BB.
End for_each_memory.

(** *** The calls of the two callbacks, as a trace *)

Inductive Access :=
| LocAccess (I : Instruction) (Loc : MemoryLocation) (OpIdx : nat)
            (IsRead IsWrite : AccessInfo)
| UnknownAccess (I : Instruction) (IsRead IsWrite : AccessInfo).

Definition accessInst (a : Access) : Instruction :=
  match a with
  | LocAccess Inst _ _ _ _ => Inst
  | UnknownAccess Inst _ _ => Inst
  end.


(** What one recorded call does to the state of the caller. *)
Definition replay {St : Type}
    (Func : Instruction → MemoryLocation → nat → AccessInfo → AccessInfo → St → St)
    (UnknownFunc : Instruction → AccessInfo → AccessInfo → St → St)
    (s : St) (a : Access) : St :=
  match a with
  | LocAccess Inst Loc OpIdx IsRead IsWrite =>
      Func Inst Loc OpIdx IsRead IsWrite s
  | UnknownAccess Inst IsRead IsWrite => UnknownFunc Inst IsRead IsWrite s
  end.

(** Callbacks that append each call to a log. *)
Definition logFunc (I : Instruction) (Loc : MemoryLocation) (OpIdx : nat)
    (IsRead IsWrite : AccessInfo) (log : list Access) : list Access :=
  log ++ [LocAccess I Loc OpIdx IsRead IsWrite].

Definition logUnknownFunc (I : Instruction) (IsRead IsWrite : AccessInfo)
    (log : list Access) : list Access :=
  log ++ [UnknownAccess I IsRead IsWrite].

Section accesses.
Context `{KnownFunctionTraits}.
Variable TLI : TargetLibraryInfo.

(** The calls [for_each_memory] makes for one instruction, in order. *)
Definition accesses (I : Instruction) : list Access :=
  for_each_memory TLI logFunc logUnknownFunc I [].



End accesses.

(** *** Vocabulary for the statements *)

(** The opcodes of the [case] labels that take a location from
    [MemoryLocation::get]: load, va_arg, atomicrmw, cmpxchg and store. *)
Definition hasLocation (I : Instruction) : bool :=
  match getOpcode I with
  | Load | VAArg | AtomicRMW | AtomicCmpXchg | Store => true
  | _ => false
  end.

(** The opcodes of the first [case] label: load, va_arg, atomicrmw, cmpxchg. *)
Definition isLoadLike (I : Instruction) : bool :=
  match getOpcode I with
  | Load | VAArg | AtomicRMW | AtomicCmpXchg => true
  | _ => false
  end.

Definition isCallOrInvoke (I : Instruction) : bool :=
  match getOpcode I with
  | Call | Invoke => true
  | _ => false
  end.

(** The call is an intrinsic that [isMemoryMarkerIntrinsic] accepts. *)
Definition isMarkerCall `{KnownFunctionTraits} (CS : CallSite) : bool :=
  match getIntrinsicID CS with
  | Some II => isMemoryMarkerIntrinsic II
  | None => false
  end.


End MemoryAccess.

Export MemoryAccess.

(** ** Concrete inputs *)

Module Samples.

Definition main : Function := mkFunction 1 (λ _, false).

Definition ptr (n : positive) : Value := mkValue (OtherValue n) true.
Definition undef : Value := mkValue UndefValue true.
Definition int (n : positive) : Value := mkValue (OtherValue n) false.

Definition noCall : CallSite :=
  mkCallSite None None 0 (λ _, undef) false false false.


(** [%v = load i32, i32* %p] *)
Definition loadP : Instruction :=
  mkInstruction 11 main Load true false (ptr 1) 4 0 noCall.

(** [store i32 %v, i32* %p] *)
Definition storeP : Instruction :=
  mkInstruction 12 main Store false true (ptr 1) 4 0 noCall.

(** [%old = atomicrmw add i32* %p, i32 1 seq_cst] *)
Definition atomicAdd : Instruction :=
  mkInstruction 13 main AtomicRMW true true (ptr 1) 4 0 noCall.

(** [fence seq_cst], an instruction of the [default:] label. *)
Definition fence : Instruction :=
  mkInstruction 14 main (OtherOpcode 0) true true undef 0 0 noCall.

(** [call void @g(i32* %p, i32 %n, i32* %q)], with [@g] unknown to the
    library information and free to touch any memory. *)
Definition callG : Instruction :=
  mkInstruction 15 main Call true true undef 0 0
    (mkCallSite (Some (mkFunction 2 (λ _, false))) None 3
       (λ Idx, match Idx with 0 => ptr 1 | 1 => int 7 | _ => ptr 2 end)
       false false false).

Definition body : FunctionBody := [[loadP; storeP]; [atomicAdd; callG; fence]].

#[global] Instance noTraits : KnownFunctionTraits := {|
  isMemoryMarkerIntrinsic := λ _, false;
  foreachIntrinsicMemArg := λ _, [];
  foreachLibFuncMemArg := λ _, []
|}.

Definition noLibrary : TargetLibraryInfo :=
  mkTLI (λ _, None) (λ _ _, (8%N, 0%N)).

(** [%s = add i32 %a, %b], which neither reads nor writes memory. *)
Definition addAB : Instruction :=
  mkInstruction 16 main (OtherOpcode 1) false false undef 0 0 noCall.

Definition locP : MemoryLocation := mkLoc (ptr 1) 4 0.
Definition locQ : MemoryLocation := mkLoc (ptr 2) 4 0.

(** A tracker that records nothing and never creates an alias set. *)
Definition noTracker (_ : Instruction) (AST : unit) : unit * bool :=
  (AST, false).

Definition emptyDU : DefUseSet unit := mkDefUseSet ∅ ∅ ∅ () ∅ ∅.

(** The footprint of a node that writes four bytes at [%p]. *)
Definition writesP : DefUseSet unit :=
  mkDefUseSet {[locP]} {[locP]} ∅ () ∅ ∅.

(** Two locations may overlap when they start at the same pointer. *)
Definition sameBase (M Loc : MemoryLocation) : bool :=
  bool_decide (Ptr M = Ptr Loc).

(** Two predecessors of a confluence point: [x] is defined on every path to
    the end of the first and on none to the end of the second. *)
Definition predDefined : DefinitionInfo :=
  mkDI (LocationDFValue.Mask {[locP]}) (LocationDFValue.Mask {[locP]}).
Definition predUndefined : DefinitionInfo :=
  mkDI LocationDFValue.emptyValue LocationDFValue.emptyValue.






(** A pass that has computed the footprint of node 1 only. *)
Definition solvedNode1 : NodeToDUMap unit :=
  {[ 1%positive := Some writesP ]}.

End Samples.

(** * Properties *)

(** ** Data-flow values *)

Section lattice_lemmas.
Import LocationDFValue.

Lemma exist_intersect V W x :
  exist (intersect V W) x = exist V x && exist W x.
Proof.
  destruct V as [|A], W as [|B]; simpl; rewrite ?andb_true_r; try done.
  rewrite <- bool_decide_and. apply bool_decide_ext, elem_of_intersection.
Qed.

Lemma exist_merge V W x : exist (merge V W) x = exist V x || exist W x.
Proof.
  destruct V as [|A], W as [|B]; simpl; rewrite ?orb_true_r; try done.
  rewrite <- bool_decide_or. apply bool_decide_ext, elem_of_union.
Qed.

Lemma exist_emptyValue x : exist emptyValue x = false.
Proof. apply bool_decide_eq_false, not_elem_of_empty. Qed.

Lemma intersect_fullValue_r V : intersect V fullValue = V.
Proof. by destruct V. Qed.

Lemma intersect_fullValue_l V : intersect fullValue V = V.
Proof. done. Qed.
End lattice_lemmas.

Section dataflow_claims.
Import LocationDFValue.
Context {PrivateDFFwk GraphType : Type}.
Variables (Fwk : PrivateDFFwk) (G : GraphType).

Local Abbreviation meet L R := (meetOperator L R Fwk G).
Local Abbreviation top := (topElement Fwk G).

(** C1.  [meetOperator] replaces [RHS.MustReach] by its intersection with
    [LHS.MustReach] and [RHS.MayReach] by its union with [LHS.MayReach].
    Hence, for predecessors [P1] whose [MustReach] contains [x] and [P2]
    whose [MustReach] is empty, the met value, in either order or
    accumulated from the top element, has [x] outside [MustReach], and has
    [x] in [MayReach] as soon as [x] is in the [MayReach] of [P1] or of
    [P2]. *)
Theorem meetOperator_intersects_and_merges
    (LHS RHS P1 P2 : DefinitionInfo) (x : MemoryLocation) :
  let R := meet LHS RHS in
  MustReach R = intersect (MustReach RHS) (MustReach LHS)
  ∧ MayReach R = merge (MayReach RHS) (MayReach LHS)
  ∧ exist (MustReach R) x
    = exist (MustReach RHS) x && exist (MustReach LHS) x
  ∧ exist (MayReach R) x = exist (MayReach RHS) x || exist (MayReach LHS) x
  ∧ (exist (MustReach P1) x = true → MustReach P2 = emptyValue →
       exist (MustReach (meet P1 P2)) x = false
       ∧ exist (MustReach (meet P2 P1)) x = false
       ∧ exist (MustReach (meet P2 (meet P1 top))) x = false
       ∧ (exist (MayReach P1) x = true ∨ exist (MayReach P2) x = true →
          exist (MayReach (meet P1 P2)) x = true
          ∧ exist (MayReach (meet P2 P1)) x = true
          ∧ exist (MayReach (meet P2 (meet P1 top))) x = true)).
Proof.
  unfold meetOperator, topElement; cbn [MustReach MayReach].
  split; [done|]. split; [done|].
  split; [apply exist_intersect|]. split; [apply exist_merge|].
  intros HP1 HP2. rewrite !exist_intersect, !exist_merge, HP1, HP2.
  rewrite !exist_emptyValue, ?andb_false_r.
  split; [done|]. split; [done|]. split; [done|].
  intros [-> | ->]; by rewrite ?orb_true_r.
Qed.

(** C2.  The top element has the full universe as [MustReach], which
    contains every location and is the identity of [intersect], and the
    empty value as [MayReach]; the boundary condition has the empty value,
    which contains no location, as both [MustReach] and [MayReach]. *)
Theorem topElement_and_boundaryCondition (x : MemoryLocation) (V : t) :
  MustReach top = fullValue
  ∧ MayReach top = emptyValue
  ∧ exist (MustReach top) x = true
  ∧ exist (MayReach top) x = false
  ∧ intersect V (MustReach top) = V
  ∧ intersect (MustReach top) V = V
  ∧ MustReach (boundaryCondition Fwk G) = emptyValue
  ∧ MayReach (boundaryCondition Fwk G) = emptyValue
  ∧ exist (MustReach (boundaryCondition Fwk G)) x = false
  ∧ exist (MayReach (boundaryCondition Fwk G)) x = false.
Proof.
  simpl. rewrite intersect_fullValue_r. repeat split; try done.
  all: apply exist_emptyValue.
Qed.
End dataflow_claims.

Lemma meetOperator_intersects_and_merges_witness :
  let x := Samples.locP in
  let P1 := Samples.predDefined in
  let P2 := Samples.predUndefined in
  LocationDFValue.exist (MustReach (meetOperator P1 P2 () ())) x = false
  ∧ LocationDFValue.exist (MustReach (meetOperator P2 P1 () ())) x = false
  ∧ LocationDFValue.exist (MayReach (meetOperator P1 P2 () ())) x = true
  ∧ LocationDFValue.exist (MayReach (meetOperator P2 P1 () ())) x = true.
Proof.
  intros x P1 P2.
  assert (Hx : LocationDFValue.exist (LocationDFValue.Mask {[x]}) x = true).
  { by apply bool_decide_eq_true, elem_of_singleton. }
  destruct (meetOperator_intersects_and_merges () () P1 P2 P1 P2 x)
    as (_ & _ & _ & _ & Hmeet).
  destruct (Hmeet Hx eq_refl) as (H12 & H21 & _ & Hmay).
  destruct (Hmay (or_introl Hx)) as (M12 & M21 & _).
  done.
Defined.

(** ** [DefUseSet] *)

Section set_lemmas.
Context `{Countable A}.

(** Inserting into a [gset] changes it exactly when the element is new. *)
Lemma insert_changes (x : A) (S : gset A) : {[x]} ∪ S ≠ S ↔ x ∉ S.
Proof.
  split.
  - intros Hne Hin. apply Hne, subseteq_union_1_L.
    by apply singleton_subseteq_l.
  - intros Hnotin Heq. apply Hnotin. rewrite <- Heq.
    apply elem_of_union_l. by apply elem_of_singleton.
Qed.

Lemma insert_twice (x : A) (S : gset A) : {[x]} ∪ ({[x]} ∪ S) = {[x]} ∪ S.
Proof.
  apply subseteq_union_1_L, singleton_subseteq_l, elem_of_union_l.
  by apply elem_of_singleton.
Qed.

Lemma insert_present (x : A) (S : gset A) : x ∈ {[x]} ∪ S.
Proof. apply elem_of_union_l. by apply elem_of_singleton. Qed.
End set_lemmas.

Section overlap_lemmas.
Variable mayOverlap : MemoryLocation → MemoryLocation → bool.

Lemma overlap_spec (S : LocationSet.t) Loc :
  LocationSet.overlap mayOverlap S Loc = true
  ↔ ∃ M, M ∈ S ∧ mayOverlap M Loc = true.
Proof.
  unfold LocationSet.overlap. rewrite existsb_exists.
  split; intros (M & HM & Hov); exists M; split; try done.
  - by apply elem_of_elements, list_elem_of_In.
  - by apply list_elem_of_In, elem_of_elements.
Qed.
End overlap_lemmas.

Section defuse_claims.
Context {AliasSetTracker : Type}.
Variable AliasSetTracker_add :
  Instruction → AliasSetTracker → AliasSetTracker * bool.
Variable mayOverlap : MemoryLocation → MemoryLocation → bool.

Implicit Types (DU : DefUseSet AliasSetTracker) (Loc : MemoryLocation).

(** C6.  [hasDef] is exact membership in the must-defined set and takes no
    overlap decision; [hasMayDef] and [hasUse] hold exactly when some member
    of the may-defined set, respectively of the set of uses, may overlap
    the location, whether or not the location itself is a member. *)
Theorem membership_queries DU Loc :
  (hasDef DU Loc = true ↔ Loc ∈ getDefs DU)
  ∧ (hasMayDef mayOverlap DU Loc = true
     ↔ ∃ M, M ∈ getMayDefs DU ∧ mayOverlap M Loc = true)
  ∧ (hasUse mayOverlap DU Loc = true
     ↔ ∃ M, M ∈ getUses DU ∧ mayOverlap M Loc = true).
Proof.
  split; [apply bool_decide_eq_true|].
  split; apply overlap_spec.
Qed.

(** C7.  Each insertion returns true exactly when the element was not
    already in its set, which is exactly when the [DefUseSet] changes;
    inserting the same element again returns false and changes nothing. *)
Theorem insertions_report_change DU Loc (P : Value) (I : Instruction) :
  (let r := addDef Loc DU in
   (r.2 = true ↔ Loc ∉ getDefs DU) ∧ (r.2 = true ↔ r.1 ≠ DU)
   ∧ addDef Loc r.1 = (r.1, false))
  ∧ (let r := addMayDef Loc DU in
     (r.2 = true ↔ Loc ∉ getMayDefs DU) ∧ (r.2 = true ↔ r.1 ≠ DU)
     ∧ addMayDef Loc r.1 = (r.1, false))
  ∧ (let r := addUse Loc DU in
     (r.2 = true ↔ Loc ∉ getUses DU) ∧ (r.2 = true ↔ r.1 ≠ DU)
     ∧ addUse Loc r.1 = (r.1, false))
  ∧ (∃ r, addAddressAccess (Some P) DU = Done r
     ∧ (r.2 = true ↔ P ∉ getAddressAccesses DU) ∧ (r.2 = true ↔ r.1 ≠ DU)
     ∧ addAddressAccess (Some P) r.1 = Done (r.1, false))
  ∧ (∃ r, addUnknownInst (Some I) DU = Done r
     ∧ (r.2 = true ↔ instId I ∉ getUnknownInsts DU)
     ∧ (r.2 = true ↔ r.1 ≠ DU)
     ∧ addUnknownInst (Some I) r.1 = Done (r.1, false)).
Proof.
  destruct DU as [Defs MayDefs Uses Explicit Addrs Unknowns].
  split; [|split; [|split; [|split]]];
    try (eexists; split; [reflexivity|]);
    cbn -[union singleton];
    (split; [apply bool_decide_eq_true|]); split.
  all: try (rewrite bool_decide_eq_true, <- insert_changes; split;
            [ intros Hne [= Heq]; by apply Hne
            | intros Hne Heq; apply Hne; by rewrite Heq ]).
  all: unfold addDef, addMayDef, addUse, addAddressAccess, addUnknownInst;
    cbn -[union singleton]; rewrite insert_twice; do 2 f_equal;
    apply bool_decide_eq_false; intros Hnotin; apply Hnotin, insert_present.
Qed.

(** C8.  [addMayDef], [addUse] and [addExplicitAccess] on an instruction
    stop at their assertion exactly when the instruction does not satisfy
    the precondition, and an instruction that neither reads nor writes memory
    fails all three.  Under the precondition the assertion is passed:
    [addExplicitAccess] returns; [addMayDef] and [addUse] return for a load,
    store, va_arg, cmpxchg or atomicrmw, recording its location, and for any
    other instruction go on into [MemoryLocation::get], which does not
    return. *)
Theorem instruction_preconditions DU (I : Instruction) :
  isAssertionFailed (addMayDef_inst (Some I) DU) = negb (mayWriteToMemory I)
  ∧ (mayWriteToMemory I = false →
     addMayDef_inst (Some I) DU
     = AssertionFailed "Instruction does not modify memory!")
  ∧ (mayWriteToMemory I = true →
     addMayDef_inst (Some I) DU =
       if hasLocation I then Done (addMayDef (MemoryLocation_get I) DU)
       else NoReturn)
  ∧ isAssertionFailed (addUse_inst (Some I) DU) = negb (mayReadFromMemory I)
  ∧ (mayReadFromMemory I = false →
     addUse_inst (Some I) DU
     = AssertionFailed "Instruction does not read memory!")
  ∧ (mayReadFromMemory I = true →
     addUse_inst (Some I) DU =
       if hasLocation I then Done (addUse (MemoryLocation_get I) DU)
       else NoReturn)
  ∧ isAssertionFailed
      (addExplicitAccess_inst AliasSetTracker_add (Some I) DU)
    = negb (mayReadOrWriteMemory I)
  ∧ (mayReadOrWriteMemory I = true →
     ∃ r, addExplicitAccess_inst AliasSetTracker_add (Some I) DU = Done r)
  ∧ (mayReadOrWriteMemory I = false →
     addExplicitAccess_inst AliasSetTracker_add (Some I) DU
     = AssertionFailed "Instruction does not read nor write memory!")
  ∧ (mayReadOrWriteMemory I = false →
     isAssertionFailed (addMayDef_inst (Some I) DU) = true
     ∧ isAssertionFailed (addUse_inst (Some I) DU) = true
     ∧ isAssertionFailed
         (addExplicitAccess_inst AliasSetTracker_add (Some I) DU) = true).
Proof.
  unfold addMayDef_inst, addUse_inst, addExplicitAccess_inst,
    MemoryLocation_get_inst, hasLocation, mayReadOrWriteMemory; simpl.
  destruct (mayReadFromMemory I), (mayWriteToMemory I), (getOpcode I); simpl;
    repeat first [split | intro]; try done; by eexists.
Qed.
End defuse_claims.

Lemma instruction_preconditions_witness :
  let DU := Samples.emptyDU in
  let add := Samples.noTracker in
  addMayDef_inst (Some Samples.storeP) DU
  = Done (addMayDef Samples.locP DU)
  ∧ addMayDef_inst (Some Samples.callG) DU = NoReturn
  ∧ addUse_inst (Some Samples.loadP) DU = Done (addUse Samples.locP DU)
  ∧ (∃ r, addExplicitAccess_inst add (Some Samples.loadP) DU = Done r)
  ∧ isAssertionFailed (addMayDef_inst (Some Samples.addAB) DU) = true
  ∧ isAssertionFailed (addUse_inst (Some Samples.addAB) DU) = true
  ∧ isAssertionFailed (addExplicitAccess_inst add (Some Samples.addAB) DU)
    = true.
Proof.
  intros DU add.
  destruct (instruction_preconditions add DU Samples.storeP)
    as (_ & _ & Hstore & _).
  destruct (instruction_preconditions add DU Samples.callG)
    as (_ & _ & Hcall & _).
  destruct (instruction_preconditions add DU Samples.loadP)
    as (_ & _ & _ & _ & _ & Hload & _ & Hexplicit & _).
  destruct (instruction_preconditions add DU Samples.addAB)
    as (_ & _ & _ & _ & _ & _ & _ & _ & _ & Hnone).
  split; [exact (Hstore eq_refl)|].
  split; [exact (Hcall eq_refl)|].
  split; [exact (Hload eq_refl)|].
  split; [exact (Hexplicit eq_refl)|].
  exact (Hnone eq_refl).
Defined.

(** ** The trace of [for_each_memory] *)

Section trace_lemmas.
Context `{KnownFunctionTraits}.
Variable TLI : TargetLibraryInfo.

Section simulation.
Context {St : Type}.
Variable Func :
  Instruction → MemoryLocation → nat → AccessInfo → AccessInfo → St → St.
Variable UnknownFunc : Instruction → AccessInfo → AccessInfo → St → St.

Let play := foldl (replay Func UnknownFunc).

(** A loop whose body keeps the state in step with the log keeps it in
    step over the whole range. *)
Lemma foldl_replay_sim {X : Type}
    (body : St → X → St) (logBody : list Access → X → list Access) :
  (∀ s log x, body (play s log) x = play s (logBody log x)) →
  ∀ l s log, foldl body (play s log) l = play s (foldl logBody log l).
Proof.
  intros Hbody l. induction l as [|x l IH]; intros s log; simpl; [done|].
  by rewrite Hbody, IH.
Qed.

Lemma play_snoc s log a :
  play s (log ++ [a]) = replay Func UnknownFunc (play s log) a.
Proof. unfold play. by rewrite foldl_app. Qed.

Lemma traverseActualParams_sim I CS s log :
  traverseActualParams TLI Func UnknownFunc I CS (play s log)
  = play s (traverseActualParams TLI logFunc logUnknownFunc I CS log).
Proof.
  unfold traverseActualParams.
  assert (Hargs :
    ∀ r w l s log,
      foldl (λ s Idx,
          let Loc := MemoryLocation_getForArgument CS Idx TLI in
          if negb (isValidPtr (getFunction I) (Ptr Loc)) then s
          else Func I Loc Idx r w s) (play s log) l
      = play s (foldl (λ s Idx,
          let Loc := MemoryLocation_getForArgument CS Idx TLI in
          if negb (isValidPtr (getFunction I) (Ptr Loc)) then s
          else logFunc I Loc Idx r w s) log l)).
  { intros r w l s' log'. apply foldl_replay_sim. intros s0 log0 x; simpl.
    destruct (isValidPtr _ _); simpl; [|done].
    unfold logFunc. by rewrite play_snoc. }
  assert (Hptrs :
    ∀ r w l s log,
      foldl (λ s Idx,
          if negb (isPointerTy (getArgument CS Idx)) then s
          else
            let Loc := MemoryLocation_getForArgument CS Idx TLI in
            if negb (isValidPtr (getFunction I) (Ptr Loc)) then s
            else Func I Loc Idx r w s) (play s log) l
      = play s (foldl (λ s Idx,
          if negb (isPointerTy (getArgument CS Idx)) then s
          else
            let Loc := MemoryLocation_getForArgument CS Idx TLI in
            if negb (isValidPtr (getFunction I) (Ptr Loc)) then s
            else logFunc I Loc Idx r w s) log l)).
  { intros r w l s' log'. apply foldl_replay_sim. intros s0 log0 x; simpl.
    destruct (isPointerTy _); simpl; [|done].
    destruct (isValidPtr _ _); simpl; [|done].
    unfold logFunc. by rewrite play_snoc. }
  destruct (getIntrinsicID CS) as [II|];
    [|destruct (getCalledFunction CS ≫= getLibFunc TLI) as [LibId|]];
    simpl; rewrite ?Hargs, ?Hptrs;
    (destruct (onlyAccessesArgMemory CS); simpl; [done|]);
    unfold logUnknownFunc; by rewrite play_snoc.
Qed.

Lemma for_each_memory_sim I s log :
  for_each_memory TLI Func UnknownFunc I (play s log)
  = play s (for_each_memory TLI logFunc logUnknownFunc I log).
Proof.
  unfold for_each_memory.
  destruct (getOpcode I); simpl;
    try apply traverseActualParams_sim;
    try (destruct (isValidPtr _ _); simpl; [|done];
         unfold logFunc; by rewrite play_snoc).
  destruct (mayReadOrWriteMemory I); simpl; [|done].
  unfold logUnknownFunc. by rewrite play_snoc.
Qed.

(** Whatever the callbacks are, [for_each_memory] does to the state what
    replaying its trace does. *)
Lemma for_each_memory_replay I s :
  for_each_memory TLI Func UnknownFunc I s = play s (accesses TLI I).
Proof. apply (for_each_memory_sim I s []). Qed.

Lemma for_each_memory_list_replay (l : list Instruction) s :
  foldl (λ s I, for_each_memory TLI Func UnknownFunc I s) s l
  = play s (foldl (λ s I, for_each_memory TLI logFunc logUnknownFunc I s)
                  [] l).
Proof.
  apply (foldl_replay_sim
           (λ s I, for_each_memory TLI Func UnknownFunc I s)
           (λ s I, for_each_memory TLI logFunc logUnknownFunc I s)
           (λ s log I, for_each_memory_sim I s log) l s []).
Qed.
End simulation.

Lemma replay_log (log tr : list Access) :
  foldl (replay logFunc logUnknownFunc) log tr = log ++ tr.
Proof.
  revert log. induction tr as [|a tr IH]; intros log; simpl.
  - by rewrite app_nil_r.
  - rewrite IH. destruct a; simpl; unfold logFunc, logUnknownFunc;
      by rewrite <- app_assoc.
Qed.

(** The logging callbacks only append. *)
Lemma for_each_memory_log I log :
  for_each_memory TLI logFunc logUnknownFunc I log = log ++ accesses TLI I.
Proof. by rewrite for_each_memory_replay, replay_log. Qed.

(** The trace of a list of instructions is the concatenation of their
    traces. *)
Lemma accesses_list (l : list Instruction) log :
  foldl (λ s I, for_each_memory TLI logFunc logUnknownFunc I s) log l
  = log ++ concat (accesses TLI <$> l).
Proof.
  revert log. induction l as [|I l IH]; intros log; csimpl.
  - by rewrite app_nil_r.
  - by rewrite IH, for_each_memory_log, <- app_assoc.
Qed.
End trace_lemmas.

(** ** The shape of the trace, by opcode *)

Section trace_shape.
Context `{KnownFunctionTraits}.
Variable TLI : TargetLibraryInfo.

Lemma accesses_load I :
  isLoadLike I = true →
  accesses TLI I =
    if isValidPtr (getFunction I) (getPointerOperand I)
    then [LocAccess I (MemoryLocation_get I) 0
            (if mayReadFromMemory I then Must else No)
            (if mayWriteToMemory I then Must else No)]
    else [].
Proof.
  unfold isLoadLike, accesses, for_each_memory.
  destruct (getOpcode I); simpl; intros Hop; try discriminate Hop;
    by destruct (isValidPtr _ _).
Qed.

Lemma accesses_store I :
  getOpcode I = Store →
  accesses TLI I =
    if isValidPtr (getFunction I) (getPointerOperand I)
    then [LocAccess I (MemoryLocation_get I) 1 No Must]
    else [].
Proof.
  intros Hop. unfold accesses, for_each_memory. rewrite Hop; simpl.
  by destruct (isValidPtr _ _).
Qed.

Lemma accesses_other I n :
  getOpcode I = OtherOpcode n →
  accesses TLI I =
    if mayReadOrWriteMemory I
    then [UnknownAccess I
            (if mayReadFromMemory I then May else No)
            (if mayWriteToMemory I then May else No)]
    else [].
Proof.
  intros Hop. unfold accesses, for_each_memory. rewrite Hop; simpl.
  by destruct (mayReadOrWriteMemory I).
Qed.

(** A loop over argument indexes whose body logs at most one call of [Func]
    keeps every invariant of the log that such a call keeps. *)
Lemma foldl_log_Forall {X : Type} (P : Access → Prop)
    (body : list Access → X → list Access) :
  (∀ log x, Forall P log → Forall P (body log x)) →
  ∀ l log, Forall P log → Forall P (foldl body log l).
Proof.
  intros Hbody l. induction l as [|x l IH]; intros log Hlog; simpl; auto.
Qed.

(** What [traverseActualParams] logs: calls of [Func] on valid argument
    locations, all with the same two flags, then at most one call of
    [UnknownFunc]. *)
Lemma accesses_call I :
  isCallOrInvoke I = true →
  let CS := getCallSite I in
  ∃ args,
    accesses TLI I =
      args ++
      (if onlyAccessesArgMemory CS then []
       else [UnknownAccess I
               (if doesNotReadMemory CS then No else May)
               (if onlyReadsMemory CS then No else May)])
    ∧ Forall (λ a, ∃ Loc Idx,
          a = LocAccess I Loc Idx
                (if doesNotReadMemory CS || isMarkerCall CS then No else May)
                (if onlyReadsMemory CS || isMarkerCall CS then No else May)
          ∧ Loc = MemoryLocation_getForArgument CS Idx TLI
          ∧ isValidPtr (getFunction I) (Ptr Loc) = true) args.
Proof.
  intros Hcall CS.
  assert (Hacc : accesses TLI I
                 = traverseActualParams TLI logFunc logUnknownFunc I CS []).
  { unfold accesses, for_each_memory, isCallOrInvoke in *.
    by destruct (getOpcode I). }
  rewrite Hacc. unfold traverseActualParams, isMarkerCall. fold CS.
  match goal with
  | |- context [if negb (onlyAccessesArgMemory CS) then _ ?s else ?s] =>
      exists s
  end.
  split.
  { destruct (onlyAccessesArgMemory CS); simpl; [by rewrite app_nil_r|done]. }
  destruct (getIntrinsicID CS) as [II|];
    [|destruct (getCalledFunction CS ≫= getLibFunc TLI) as [LibId|]];
    rewrite ?orb_false_r.
  all: apply foldl_log_Forall; [|by constructor].
  all: intros log Idx Hlog; simpl.
  all: try (destruct (isPointerTy _); simpl; [|done]).
  all: destruct (isValidPtr _ _) eqn:Hvalid; simpl; [|done].
  all: unfold logFunc; apply Forall_app; split; [done|].
  all: repeat constructor; by eexists _, Idx.
Qed.

(** Every call recorded for [I] names [I]. *)
Lemma accesses_inst I a : a ∈ accesses TLI I → accessInst a = I.
Proof.
  intros Ha.
  destruct (hasLocation I) eqn:Hloc; [|destruct (isCallOrInvoke I) eqn:Hcall].
  - assert (Hsome : ∃ Loc Idx r w,
               a ∈ if isValidPtr (getFunction I) (getPointerOperand I)
                   then [LocAccess I Loc Idx r w] else []).
    { unfold hasLocation in Hloc. destruct (getOpcode I) eqn:Hop;
        try discriminate Hloc.
      1-4: rewrite accesses_load in Ha
             by (by unfold isLoadLike; rewrite Hop); eauto.
      rewrite accesses_store in Ha by done; eauto. }
    destruct Hsome as (Loc & Idx & r & w & Hin).
    destruct (isValidPtr _ _); [|by apply elem_of_nil in Hin].
    by apply list_elem_of_singleton in Hin as ->.
  - destruct (accesses_call I Hcall) as (args & Heq & Hargs).
    rewrite Heq in Ha. apply elem_of_app in Ha as [Ha|Ha].
    + rewrite Forall_forall in Hargs.
      by destruct (Hargs a Ha) as (Loc & Idx & -> & _).
    + destruct (onlyAccessesArgMemory _); [by apply elem_of_nil in Ha|].
      by apply list_elem_of_singleton in Ha as ->.
  - unfold hasLocation, isCallOrInvoke in *.
    destruct (getOpcode I) as [| | | | | | |n] eqn:Hop; try discriminate.
    rewrite (accesses_other I n Hop) in Ha.
    destruct (mayReadOrWriteMemory I); [|by apply elem_of_nil in Ha].
    by apply list_elem_of_singleton in Ha as ->.
Qed.



(** A loop that logs [f x] for the [x] that satisfy [P] logs the image of
    the filtered range. *)
Lemma foldl_log_filter {X : Type} (P : X → Prop) `{∀ x, Decision (P x)}
    (f : X → Access) (body : list Access → X → list Access) :
  (∀ log x, body log x = if decide (P x) then log ++ [f x] else log) →
  ∀ l log, foldl body log l = log ++ (f <$> filter P l).
Proof.
  intros Hbody l. induction l as [|x l IH]; intros log; csimpl.
  - by rewrite app_nil_r.
  - rewrite IH, Hbody, filter_cons. destruct (decide (P x)); csimpl; [|done].
    by rewrite <- app_assoc.
Qed.

Lemma accesses_traverse I :
  isCallOrInvoke I = true →
  accesses TLI I
  = traverseActualParams TLI logFunc logUnknownFunc I (getCallSite I) [].
Proof.
  unfold accesses, for_each_memory, isCallOrInvoke.
  by destruct (getOpcode I).
Qed.

(** The call of [UnknownFunc] that closes [traverseActualParams]. *)
Lemma traverse_unknown I (CS : CallSite) (log : list Access) :
  (if negb (onlyAccessesArgMemory CS)
   then logUnknownFunc I (if doesNotReadMemory CS then No else May)
          (if onlyReadsMemory CS then No else May) log
   else log)
  = log ++ (if onlyAccessesArgMemory CS then []
            else [UnknownAccess I (if doesNotReadMemory CS then No else May)
                    (if onlyReadsMemory CS then No else May)]).
Proof.
  destruct (onlyAccessesArgMemory CS); simpl; [by rewrite app_nil_r|done].
Qed.

End trace_shape.

(** ** Claims about [for_each_memory] *)

Section enumerator_claims.
Context `{KnownFunctionTraits}.
Variable TLI : TargetLibraryInfo.



Lemma accesses_hasLocation I :
  hasLocation I = true →
  ∃ Idx r w,
    accesses TLI I =
      (if isValidPtr (getFunction I) (getPointerOperand I)
       then [LocAccess I (MemoryLocation_get I) Idx r w] else [])
    ∧ (w = Must →
       isa_StoreInst I = true
       ∨ isLoadLike I = true ∧ mayWriteToMemory I = true).
Proof.
  unfold hasLocation. intros Hloc.
  destruct (getOpcode I) eqn:Hop; try discriminate Hloc.
  1-4: eexists _, _, _; split;
       [apply accesses_load; by unfold isLoadLike; rewrite Hop|];
       intros Hw; right; unfold isLoadLike; rewrite Hop; split; [done|];
       by destruct (mayWriteToMemory I).
  eexists _, _, _; split; [by apply accesses_store|].
  intros _. left. unfold isa_StoreInst. by rewrite Hop.
Qed.


Lemma call_argument_flags I Inst Loc Idx r w :
  isCallOrInvoke I = true →
  LocAccess Inst Loc Idx r w ∈ accesses TLI I →
  let CS := getCallSite I in
  r = (if doesNotReadMemory CS || isMarkerCall CS then No else May)
  ∧ w = (if onlyReadsMemory CS || isMarkerCall CS then No else May).
Proof.
  intros Hcall Hin CS.
  destruct (accesses_call TLI I Hcall) as (args & Heq & Hargs).
  rewrite Heq in Hin. apply elem_of_app in Hin as [Hin|Hin].
  - rewrite Forall_forall in Hargs.
    by destruct (Hargs _ Hin) as (Loc' & Idx' & [= -> -> -> -> ->] & _).
  - destruct (onlyAccessesArgMemory _); [by apply elem_of_nil in Hin|].
    by apply list_elem_of_singleton in Hin.
Qed.

(** The flags of a call of [UnknownFunc], by the label that makes it. *)
Lemma unknown_access_flags I Inst r w :
  UnknownAccess Inst r w ∈ accesses TLI I →
  (isCallOrInvoke I = true
   ∧ r = (if doesNotReadMemory (getCallSite I) then No else May)
   ∧ w = (if onlyReadsMemory (getCallSite I) then No else May))
  ∨ (isCallOrInvoke I = false
     ∧ r = (if mayReadFromMemory I then May else No)
     ∧ w = (if mayWriteToMemory I then May else No)).
Proof.
  intros Hin.
  destruct (hasLocation I) eqn:Hloc; [|destruct (isCallOrInvoke I) eqn:Hcall].
  - destruct (accesses_hasLocation I Hloc) as (Idx & r' & w' & Heq & _).
    rewrite Heq in Hin.
    destruct (isValidPtr _ _); [|by apply elem_of_nil in Hin].
    by apply list_elem_of_singleton in Hin.
  - left. destruct (accesses_call TLI I Hcall) as (args & Heq & Hargs).
    rewrite Heq in Hin. apply elem_of_app in Hin as [Hin|Hin].
    + rewrite Forall_forall in Hargs.
      by destruct (Hargs _ Hin) as (Loc & Idx & ? & _).
    + destruct (onlyAccessesArgMemory _); [by apply elem_of_nil in Hin|].
      by apply list_elem_of_singleton in Hin as [= _ -> ->].
  - right. unfold hasLocation, isCallOrInvoke in *.
    destruct (getOpcode I) as [| | | | | | |n] eqn:Hop; try discriminate.
    rewrite (accesses_other TLI I n Hop) in Hin.
    destruct (mayReadOrWriteMemory I); [|by apply elem_of_nil in Hin].
    by apply list_elem_of_singleton in Hin as [= _ -> ->].
Qed.

(** C4.  Every call of [Func] made for an actual parameter of a call or
    invoke carries a read flag that is [No] when the call site does not read
    memory or the intrinsic is a memory marker and [May] otherwise, and a
    write flag that is [No] when the call site only reads memory or the
    intrinsic is a memory marker and [May] otherwise; neither is [Must]. *)
Theorem call_arguments_at_most_May I Inst Loc Idx r w :
  isCallOrInvoke I = true →
  LocAccess Inst Loc Idx r w ∈ accesses TLI I →
  let CS := getCallSite I in
  r = (if doesNotReadMemory CS || isMarkerCall CS then No else May)
  ∧ w = (if onlyReadsMemory CS || isMarkerCall CS then No else May)
  ∧ r ≠ Must ∧ w ≠ Must.
Proof.
  intros Hcall Hin CS.
  destruct (call_argument_flags I _ _ _ _ _ Hcall Hin) as [Hr Hw].
  fold CS in Hr, Hw. repeat split; try done.
  - rewrite Hr. by destruct (doesNotReadMemory CS || isMarkerCall CS).
  - rewrite Hw. by destruct (onlyReadsMemory CS || isMarkerCall CS).
Qed.


(** C9 (amended).  An instruction for which [Func] is called with write
    flag [Must] is a store, or a load, va_arg, atomicrmw or cmpxchg that
    may write to memory; a call, an invoke or an instruction of the default
    label never gets [Must]. *)
Theorem must_write_instructions I Inst Loc Idx r :
  LocAccess Inst Loc Idx r Must ∈ accesses TLI I →
  Inst = I
  ∧ (isa_StoreInst I = true
     ∨ isLoadLike I = true ∧ mayWriteToMemory I = true).
Proof.
  intros Hin. split; [exact (accesses_inst TLI I _ Hin)|].
  destruct (hasLocation I) eqn:Hloc; [|destruct (isCallOrInvoke I) eqn:Hcall].
  - destruct (accesses_hasLocation I Hloc) as (Idx' & r' & w' & Heq & Hw).
    rewrite Heq in Hin.
    destruct (isValidPtr _ _); [|by apply elem_of_nil in Hin].
    apply list_elem_of_singleton in Hin as [= _ _ _ <-]. by apply Hw.
  - destruct (call_argument_flags I _ _ _ _ _ Hcall Hin) as [_ Hw].
    by destruct (onlyReadsMemory _ || isMarkerCall _).
  - unfold hasLocation, isCallOrInvoke in *.
    destruct (getOpcode I) as [| | | | | | |n] eqn:Hop; try discriminate.
    rewrite (accesses_other TLI I n Hop) in Hin.
    destruct (mayReadOrWriteMemory I); [|by apply elem_of_nil in Hin].
    by apply list_elem_of_singleton in Hin.
Qed.

(** C10.  Every call of [UnknownFunc] carries read and write flags that are
    each [No] or [May], never [Must]. *)
Theorem unknown_callback_never_Must I Inst r w :
  UnknownAccess Inst r w ∈ accesses TLI I →
  (r = No ∨ r = May) ∧ (w = No ∨ w = May).
Proof.
  intros Hin.
  destruct (unknown_access_flags I _ _ _ Hin) as [(_ & -> & ->)|(_ & -> & ->)].
  - destruct (doesNotReadMemory _), (onlyReadsMemory _); auto.
  - destruct (mayReadFromMemory I), (mayWriteToMemory I); auto.
Qed.
End enumerator_claims.

(** ** The claims on concrete instructions *)

Section enumerator_samples.
Import Samples.

Local Ltac in_list :=
  cbv; repeat first [apply list_elem_of_here | apply list_elem_of_further].





Lemma call_arguments_at_most_May_witness :
  May = (if false || isMarkerCall (getCallSite callG) then No else May)
  ∧ May = (if false || isMarkerCall (getCallSite callG) then No else May)
  ∧ May ≠ Must ∧ May ≠ Must.
Proof.
  apply (call_arguments_at_most_May noLibrary callG callG
           (MemoryLocation_getForArgument (getCallSite callG) 2 noLibrary)
           2 May May); [done|in_list].
Defined.

Lemma must_write_instructions_witness :
  atomicAdd = atomicAdd
  ∧ (isa_StoreInst atomicAdd = true
     ∨ isLoadLike atomicAdd = true ∧ mayWriteToMemory atomicAdd = true).
Proof.
  apply (must_write_instructions noLibrary atomicAdd atomicAdd locP 0 Must).
  in_list.
Defined.

(** C9, as stated, fails on an atomicrmw: [Func] is called with write flag
    [Must] for an instruction that is not a store. *)
Lemma must_write_from_atomicrmw :
  accesses noLibrary atomicAdd = [LocAccess atomicAdd locP 0 Must Must]
  ∧ isa_StoreInst atomicAdd = false.
Proof. done. Qed.

Lemma unknown_callback_never_Must_witness :
  (May = No ∨ May = May) ∧ (May = No ∨ May = May).
Proof.
  apply (unknown_callback_never_Must noLibrary callG callG May May). in_list.
Defined.

End enumerator_samples.

(** ** [DefUseSet] on concrete locations *)

Section defuse_samples.
Import Samples.

(** A query for eight bytes at [%p], of which four are in the sets: an
    overlap query answers true, the exact query answers false. *)
Example partial_overlap :
  hasMayDef sameBase writesP (mkLoc (ptr 1) 8 0) = true
  ∧ hasDef writesP (mkLoc (ptr 1) 8 0) = false
  ∧ hasDef writesP locP = true
  ∧ hasUse sameBase writesP locP = false.
Proof. by vm_compute. Qed.

Example addDef_twice :
  (addDef locP emptyDU).2 = true
  ∧ (addDef locP (addDef locP emptyDU).1).2 = false
  ∧ (addDef locP (addDef locP emptyDU).1).1 = (addDef locP emptyDU).1.
Proof. by vm_compute. Qed.
End defuse_samples.

(** * Further properties *)

(** ** The meet operator as a lattice operation *)

Section lattice_laws.
Import LocationDFValue.

Lemma intersect_idemp V : intersect V V = V.
Proof. destruct V as [|A]; simpl; [done|]. f_equal. apply (idemp_L _). Qed.

Lemma intersect_comm V W : intersect V W = intersect W V.
Proof.
  destruct V as [|A], W as [|B]; simpl; try done. f_equal. apply (comm_L _).
Qed.

Lemma intersect_assoc U V W :
  intersect U (intersect V W) = intersect (intersect U V) W.
Proof.
  destruct U as [|A], V as [|B], W as [|C]; simpl; try done.
  f_equal. apply (assoc_L _).
Qed.

Lemma merge_idemp V : merge V V = V.
Proof. destruct V as [|A]; simpl; [done|]. f_equal. apply (idemp_L _). Qed.

Lemma merge_comm V W : merge V W = merge W V.
Proof.
  destruct V as [|A], W as [|B]; simpl; try done. f_equal. apply (comm_L _).
Qed.

Lemma merge_assoc U V W : merge U (merge V W) = merge (merge U V) W.
Proof.
  destruct U as [|A], V as [|B], W as [|C]; simpl; try done.
  f_equal. apply (assoc_L _).
Qed.

Lemma merge_emptyValue_r V : merge V emptyValue = V.
Proof.
  destruct V as [|A]; simpl; [done|]. f_equal. apply (right_id_L _ _).
Qed.

Lemma merge_emptyValue_l V : merge emptyValue V = V.
Proof.
  destruct V as [|A]; simpl; [done|]. f_equal. apply (left_id_L _ _).
Qed.

Lemma intersect_emptyValue_r V : intersect V emptyValue = emptyValue.
Proof.
  destruct V as [|A]; simpl; [done|]. unfold emptyValue. f_equal.
  apply (right_absorb_L _ _).
Qed.

Lemma intersect_emptyValue_l V : intersect emptyValue V = emptyValue.
Proof.
  destruct V as [|A]; simpl; [done|]. unfold emptyValue. f_equal.
  apply (left_absorb_L _ _).
Qed.
End lattice_laws.

Section meet_laws.
Import LocationDFValue.
Context {PrivateDFFwk GraphType : Type}.
Variables (Fwk : PrivateDFFwk) (G : GraphType).

Local Abbreviation meet L R := (meetOperator L R Fwk G).
Local Abbreviation top := (topElement Fwk G).
Local Abbreviation boundary := (boundaryCondition Fwk G).

(** X1.  [meetOperator] is idempotent, commutative and associative: the value
    met at a confluence point does not depend on the order in which the
    predecessors are met, nor on meeting one of them twice. *)
Theorem meetOperator_semilattice (A B C : DefinitionInfo) :
  meet A A = A
  ∧ meet A B = meet B A
  ∧ meet A (meet B C) = meet (meet A B) C
  ∧ meet A (meet A B) = meet A B.
Proof.
  destruct A as [A1 A2], B as [B1 B2], C as [C1 C2].
  unfold meetOperator; cbn [MustReach MayReach].
  split; [by rewrite intersect_idemp, merge_idemp|].
  split; [by rewrite intersect_comm, merge_comm|].
  split.
  - f_equal.
    + by rewrite <- intersect_assoc, (intersect_comm B1 A1).
    + by rewrite <- merge_assoc, (merge_comm B2 A2).
  - f_equal.
    + by rewrite <- intersect_assoc, intersect_idemp.
    + by rewrite <- merge_assoc, merge_idemp.
Qed.

(** X2.  The top element is neutral for [meetOperator] on either side.  The
    boundary condition is absorbing for [MustReach] and neutral for
    [MayReach]: met with it, a value keeps its [MayReach] and has an empty
    [MustReach]. *)
Theorem meetOperator_top_and_boundary (V : DefinitionInfo) :
  meet top V = V
  ∧ meet V top = V
  ∧ MustReach (meet boundary V) = emptyValue
  ∧ MustReach (meet V boundary) = emptyValue
  ∧ MayReach (meet boundary V) = MayReach V
  ∧ MayReach (meet V boundary) = MayReach V.
Proof.
  destruct V as [V1 V2].
  unfold meetOperator, topElement, boundaryCondition;
    cbn [MustReach MayReach].
  rewrite intersect_fullValue_r, merge_emptyValue_r, merge_emptyValue_l,
    intersect_emptyValue_r, intersect_emptyValue_l.
  done.
Qed.

Lemma meet_all_MustReach (Ps : list DefinitionInfo) acc x :
  exist (MustReach (foldl (λ acc P, meet P acc) acc Ps)) x = true
  ↔ exist (MustReach acc) x = true
    ∧ ∀ P, P ∈ Ps → exist (MustReach P) x = true.
Proof.
  revert acc. induction Ps as [|P Ps IH]; intros acc; csimpl.
  - split; [intros Hacc; split; [done|]|by intros [? _]].
    intros P HP. by apply elem_of_nil in HP.
  - rewrite IH. unfold meetOperator at 1; cbn [MustReach MayReach].
    rewrite exist_intersect, andb_true_iff. split.
    + intros [[Hacc HP] Hrest]. split; [done|].
      intros Q [->|HQ]%elem_of_cons; auto.
    + intros [Hacc Hall]. split; [split; [done|]|].
      * apply Hall, list_elem_of_here.
      * intros Q HQ. by apply Hall, list_elem_of_further.
Qed.

Lemma meet_all_MayReach (Ps : list DefinitionInfo) acc x :
  exist (MayReach (foldl (λ acc P, meet P acc) acc Ps)) x = true
  ↔ exist (MayReach acc) x = true
    ∨ ∃ P, P ∈ Ps ∧ exist (MayReach P) x = true.
Proof.
  revert acc. induction Ps as [|P Ps IH]; intros acc; csimpl.
  - split; [by left|]. intros [?|(P & HP & _)]; [done|].
    by apply elem_of_nil in HP.
  - rewrite IH. unfold meetOperator at 1; cbn [MustReach MayReach].
    rewrite exist_merge, orb_true_iff. split.
    + intros [[Hacc|HP]|(Q & HQ & Hx)]; [by left|right..].
      * exists P. split; [apply list_elem_of_here|done].
      * exists Q. split; [by apply list_elem_of_further|done].
    + intros [Hacc|(Q & [->|HQ]%elem_of_cons & Hx)]; [by left; left|..].
      * by left; right.
      * right. by exists Q.
Qed.

(** X3.  Meeting the OUT values of a list of predecessors one after the
    other, starting from the top element, gives a value whose [MustReach]
    holds the locations in the [MustReach] of every predecessor and whose
    [MayReach] holds the locations in the [MayReach] of some predecessor.
    Without predecessors every location is in [MustReach] and none in
    [MayReach]. *)
Theorem meet_over_predecessors (Ps : list DefinitionInfo) (x : MemoryLocation) :
  let V := foldl (λ acc P, meet P acc) top Ps in
  (exist (MustReach V) x = true
   ↔ ∀ P, P ∈ Ps → exist (MustReach P) x = true)
  ∧ (exist (MayReach V) x = true
     ↔ ∃ P, P ∈ Ps ∧ exist (MayReach P) x = true).
Proof.
  intros V. subst V. rewrite meet_all_MustReach, meet_all_MayReach.
  unfold topElement; cbn [MustReach MayReach].
  rewrite exist_emptyValue. cbn [exist fullValue]. split.
  - split; [by intros [_ ?]|done].
  - split; [by intros [?|?]|by right].
Qed.
End meet_laws.

(** ** Recording and querying a [DefUseSet] *)

Section defuse_round_trips.
Context {AliasSetTracker : Type}.
Variable AliasSetTracker_add :
  Instruction → AliasSetTracker → AliasSetTracker * bool.
Variable mayOverlap : MemoryLocation → MemoryLocation → bool.

Implicit Types (DU : DefUseSet AliasSetTracker) (Loc : MemoryLocation).

Lemma overlap_insert (S : LocationSet.t) Loc Loc' :
  LocationSet.overlap mayOverlap ({[Loc]} ∪ S) Loc'
  = mayOverlap Loc Loc' || LocationSet.overlap mayOverlap S Loc'.
Proof.
  apply eq_true_iff_eq. rewrite orb_true_iff, !overlap_spec. split.
  - intros (M & [HM|HM]%elem_of_union & Hov).
    + apply elem_of_singleton in HM as ->. by left.
    + right. by exists M.
  - intros [Hov|(M & HM & Hov)].
    + exists Loc. split; [apply insert_present|done].
    + exists M. split; [by apply elem_of_union_r|done].
Qed.

(** X4.  After [addDef(Loc)], [hasDef] holds of [Loc] and of the locations
    it held of before, and of no other: a location with the same pointer but
    another size or other alias tags is not reported. *)
Theorem hasDef_after_addDef DU Loc Loc' :
  hasDef (addDef Loc DU).1 Loc' = true
  ↔ Loc' = Loc ∨ hasDef DU Loc' = true.
Proof.
  unfold hasDef, addDef, LocationSet.contain, LocationSet.insert;
    cbn [fst mDefs].
  rewrite !bool_decide_eq_true, elem_of_union, elem_of_singleton. done.
Qed.

(** X5.  After [addMayDef(Loc)], [hasMayDef] holds of the locations that
    [Loc] may overlap and of those it held of before; likewise [hasUse] after
    [addUse(Loc)].  The three kinds are kept apart: [addDef] changes no
    answer of [hasMayDef] or [hasUse], and [addMayDef] and [addUse] change no
    answer of [hasDef]. *)
Theorem overlap_queries_after_insertion DU Loc Loc' :
  hasMayDef mayOverlap (addMayDef Loc DU).1 Loc'
  = mayOverlap Loc Loc' || hasMayDef mayOverlap DU Loc'
  ∧ hasUse mayOverlap (addUse Loc DU).1 Loc'
    = mayOverlap Loc Loc' || hasUse mayOverlap DU Loc'
  ∧ hasMayDef mayOverlap (addDef Loc DU).1 Loc' = hasMayDef mayOverlap DU Loc'
  ∧ hasUse mayOverlap (addDef Loc DU).1 Loc' = hasUse mayOverlap DU Loc'
  ∧ hasDef (addMayDef Loc DU).1 Loc' = hasDef DU Loc'
  ∧ hasDef (addUse Loc DU).1 Loc' = hasDef DU Loc'.
Proof.
  unfold hasMayDef, hasUse, hasDef, addMayDef, addUse, addDef,
    LocationSet.insert; cbn [fst mDefs mMayDefs mUses].
  by rewrite !overlap_insert.
Qed.

(** X6.  The recorded footprint does not depend on the order in which
    locations are recorded, within one kind and across kinds. *)
Theorem insertions_commute DU (L1 L2 : MemoryLocation) :
  (addDef L2 (addDef L1 DU).1).1 = (addDef L1 (addDef L2 DU).1).1
  ∧ (addMayDef L2 (addMayDef L1 DU).1).1
    = (addMayDef L1 (addMayDef L2 DU).1).1
  ∧ (addUse L2 (addUse L1 DU).1).1 = (addUse L1 (addUse L2 DU).1).1
  ∧ (addMayDef L2 (addDef L1 DU).1).1 = (addDef L1 (addMayDef L2 DU).1).1
  ∧ (addUse L2 (addDef L1 DU).1).1 = (addDef L1 (addUse L2 DU).1).1
  ∧ (addUse L2 (addMayDef L1 DU).1).1 = (addMayDef L1 (addUse L2 DU).1).1.
Proof.
  assert (Hswap : ∀ S : LocationSet.t,
            {[L2]} ∪ ({[L1]} ∪ S) = {[L1]} ∪ ({[L2]} ∪ S)).
  { intros S. by rewrite !(assoc_L (∪)), (comm_L (∪) {[L2]}). }
  unfold addDef, addMayDef, addUse, LocationSet.insert;
    cbn [fst mDefs mMayDefs mUses mExplicitAccesses mAddressAccesses
         mUnknownInsts].
  by rewrite !Hswap.
Qed.

(** X7.  After [addAddressAccess(Ptr)], [hasAddressAccess] holds of [Ptr] and
    of the pointers it held of before, and of no other; after
    [addUnknownInst(I)], [hasUnknownInst] holds of the instruction at the
    address of [I] and of those it held of before.  All four stop at their
    assertion on a null pointer. *)
Theorem pointer_sets_round_trip DU (P Q : Value) (I J : Instruction) :
  (∃ r, addAddressAccess (Some P) DU = Done r
     ∧ hasAddressAccess r.1 (Some Q)
       = Done (bool_decide (Q = P ∨ Q ∈ getAddressAccesses DU)))
  ∧ (∃ r, addUnknownInst (Some I) DU = Done r
       ∧ hasUnknownInst r.1 (Some J)
         = Done (bool_decide (instId J = instId I
                              ∨ instId J ∈ getUnknownInsts DU)))
  ∧ isAssertionFailed (addAddressAccess None DU) = true
  ∧ isAssertionFailed (hasAddressAccess DU None) = true
  ∧ isAssertionFailed (addUnknownInst None DU) = true
  ∧ isAssertionFailed (hasUnknownInst DU None) = true.
Proof.
  split; [|split; [|done]].
  - eexists. split; [reflexivity|].
    unfold hasAddressAccess; cbn -[union singleton]. f_equal.
    apply bool_decide_ext.
    by rewrite elem_of_union, elem_of_singleton.
  - eexists. split; [reflexivity|].
    unfold hasUnknownInst; cbn -[union singleton]. f_equal.
    apply bool_decide_ext.
    by rewrite elem_of_union, elem_of_singleton.
Qed.

End defuse_round_trips.

(** ** [DefinedMemoryPass] *)

Section pass_properties.
Context {AliasSetTracker : Type}.

(** X9.  [getDefUseFor] returns the set stored for a node exactly when the
    map has an entry with a non-null pointer for it; it stops at an assertion
    for a null node, for a node without an entry and for an entry with a null
    pointer, hence for every node once [releaseMemory] has run. *)
Theorem getDefUseFor_defined
    (m : NodeToDUMap AliasSetTracker)
    (N : DFNode) (DU : DefUseSet AliasSetTracker) :
  (getDefUseFor (Some N) m = Done DU ↔ m !! N = Some (Some DU))
  ∧ (isAssertionFailed (getDefUseFor (Some N) m) = true
     ↔ m !! N = None ∨ m !! N = Some None)
  ∧ isAssertionFailed (getDefUseFor None m) = true
  ∧ getDefUseFor (Some N) (releaseMemory m)
    = AssertionFailed "Def-use set must be specified!".
Proof.
  split; [|split; [|split; [done|]]].
  - unfold getDefUseFor; simpl.
    destruct (m !! N) as [[DU'|]|]; simpl; split; try done;
      by intros [= ->].
  - unfold getDefUseFor; simpl.
    destruct (m !! N) as [[DU'|]|]; simpl; split; try done.
    + by intros [|].
    + by right.
    + by left.
  - unfold getDefUseFor, releaseMemory; simpl.
    by rewrite lookup_empty.
Qed.
End pass_properties.

Lemma getDefUseFor_defined_witness :
  getDefUseFor (Some 1%positive) Samples.solvedNode1 = Done Samples.writesP
  ∧ isAssertionFailed (getDefUseFor (Some 2%positive) Samples.solvedNode1)
    = true.
Proof.
  destruct (getDefUseFor_defined Samples.solvedNode1 1%positive
              Samples.writesP) as ([_ Hfound] & _).
  destruct (getDefUseFor_defined Samples.solvedNode1 2%positive
              Samples.writesP) as (_ & [_ Hmissing] & _).
  split.
  - apply Hfound. by vm_compute.
  - apply Hmissing. left. by vm_compute.
Defined.

(** ** More on the trace of [for_each_memory] *)

Section trace_more.
Context `{KnownFunctionTraits}.
Variable TLI : TargetLibraryInfo.

(** X10.  [Func] is never called with a location whose pointer is undef or a
    null pointer that is not defined in the address space of the function:
    every location it gets passes [isValidPtr]. *)
Theorem Func_gets_valid_pointers I Inst Loc Idx r w :
  LocAccess Inst Loc Idx r w ∈ accesses TLI I →
  isValidPtr (getFunction I) (Ptr Loc) = true
  ∧ getKind (Ptr Loc) ≠ UndefValue
  ∧ ∀ AddressSpace, getKind (Ptr Loc) = ConstantPointerNull AddressSpace →
      NullPointerIsDefined (getFunction I) AddressSpace = true.
Proof.
  intros Hin.
  assert (Hvalid : isValidPtr (getFunction I) (Ptr Loc) = true).
  { destruct (hasLocation I) eqn:Hloc; [|destruct (isCallOrInvoke I) eqn:Hcall].
    - destruct (accesses_hasLocation TLI I Hloc) as (Idx' & r' & w' & Heq & _).
      rewrite Heq in Hin.
      destruct (isValidPtr _ _) eqn:Hvalid; [|by apply elem_of_nil in Hin].
      by apply list_elem_of_singleton in Hin as [= _ -> _ _ _].
    - destruct (accesses_call TLI I Hcall) as (args & Heq & Hargs).
      rewrite Heq in Hin. apply elem_of_app in Hin as [Hin|Hin].
      + rewrite Forall_forall in Hargs.
        by destruct (Hargs _ Hin) as (Loc' & Idx' & [= _ -> _ _ _] & _ & ?).
      + destruct (onlyAccessesArgMemory _); [by apply elem_of_nil in Hin|].
        by apply list_elem_of_singleton in Hin.
    - unfold hasLocation, isCallOrInvoke in *.
      destruct (getOpcode I) as [| | | | | | |n] eqn:Hop; try discriminate.
      rewrite (accesses_other TLI I n Hop) in Hin.
      destruct (mayReadOrWriteMemory I); [|by apply elem_of_nil in Hin].
      by apply list_elem_of_singleton in Hin. }
  split; [done|]. unfold isValidPtr in Hvalid.
  destruct (getKind (Ptr Loc)) as [|AS|p]; [done|..].
  - split; [done|]. intros AS' [= <-].
    by destruct (NullPointerIsDefined _ AS).
  - by split.
Qed.

(** X11.  An instruction that is no call and no invoke gets at most one call
    of a callback.  A call of [Func] for it carries the location of
    [MemoryLocation::get], operand index 1 and the flags (No, Must) for a
    store, and operand index 0 and flags that are each [Must] or [No], by
    [mayReadFromMemory] and [mayWriteToMemory], otherwise; its flags are
    never [May]. *)
Theorem non_call_accesses I :
  isCallOrInvoke I = false →
  length (accesses TLI I) ≤ 1
  ∧ ∀ Inst Loc Idx r w,
      LocAccess Inst Loc Idx r w ∈ accesses TLI I →
      Loc = MemoryLocation_get I
      ∧ Idx = (if isa_StoreInst I then 1 else 0)
      ∧ r = (if isa_StoreInst I then No
             else if mayReadFromMemory I then Must else No)
      ∧ w = (if isa_StoreInst I then Must
             else if mayWriteToMemory I then Must else No)
      ∧ r ≠ May ∧ w ≠ May.
Proof.
  intros Hcall. unfold isCallOrInvoke, isa_StoreInst in *.
  destruct (getOpcode I) as [| | | | | | |n] eqn:Hop; try discriminate.
  1-4: rewrite accesses_load by (by unfold isLoadLike; rewrite Hop);
       destruct (isValidPtr _ _); simpl; (split; [lia|]);
       intros Inst Loc Idx r w Hin; [|by apply elem_of_nil in Hin];
       apply list_elem_of_singleton in Hin as [= -> -> -> -> ->];
       by destruct (mayReadFromMemory I), (mayWriteToMemory I).
  - rewrite accesses_store by done.
    destruct (isValidPtr _ _); simpl; (split; [lia|]);
      intros Inst Loc Idx r w Hin; [|by apply elem_of_nil in Hin].
    by apply list_elem_of_singleton in Hin as [= -> -> -> -> ->].
  - rewrite (accesses_other TLI I n Hop).
    destruct (mayReadOrWriteMemory I); simpl; (split; [lia|]);
      intros Inst Loc Idx r w Hin; [|by apply elem_of_nil in Hin].
    by apply list_elem_of_singleton in Hin.
Qed.

(** X12.  For a call or invoke that is no intrinsic and whose callee the
    library information does not know, [Func] is called once for each actual
    parameter of pointer type whose pointer passes [isValidPtr], in the order
    of the parameters and with the index of the parameter; the call of
    [UnknownFunc], if any, comes last. *)
Theorem unknown_callee_accesses I :
  let CS := getCallSite I in
  isCallOrInvoke I = true →
  getIntrinsicID CS = None →
  getCalledFunction CS ≫= getLibFunc TLI = None →
  accesses TLI I =
    ((λ Idx, LocAccess I (MemoryLocation_getForArgument CS Idx TLI) Idx
               (if doesNotReadMemory CS then No else May)
               (if onlyReadsMemory CS then No else May))
       <$> filter (λ Idx, isPointerTy (getArgument CS Idx) = true
                          ∧ isValidPtr (getFunction I) (getArgument CS Idx)
                            = true)
                  (seq 0 (arg_size CS)))
    ++ (if onlyAccessesArgMemory CS then []
        else [UnknownAccess I (if doesNotReadMemory CS then No else May)
                (if onlyReadsMemory CS then No else May)]).
Proof.
  intros CS Hcall Hintr Hlib. rewrite (accesses_traverse TLI I Hcall).
  unfold traverseActualParams. fold CS. rewrite Hintr, Hlib.
  rewrite traverse_unknown. f_equal.
  rewrite (foldl_log_filter
             (λ Idx, isPointerTy (getArgument CS Idx) = true
                     ∧ isValidPtr (getFunction I) (getArgument CS Idx) = true)
             (λ Idx, LocAccess I (MemoryLocation_getForArgument CS Idx TLI) Idx
                       (if doesNotReadMemory CS then No else May)
                       (if onlyReadsMemory CS then No else May)));
    [done|].
  intros log Idx; simpl.
  by destruct (isPointerTy _), (isValidPtr _ _).
Qed.

End trace_more.

Section traversal_composition.
Context `{KnownFunctionTraits}.
Variable TLI : TargetLibraryInfo.
Context {St : Type}.
Variable Func :
  Instruction → MemoryLocation → nat → AccessInfo → AccessInfo → St → St.
Variable UnknownFunc : Instruction → AccessInfo → AccessInfo → St → St.

Local Abbreviation visit := (for_each_memory TLI Func UnknownFunc).
Local Abbreviation visitBlock := (for_each_memory_block TLI Func UnknownFunc).
Local Abbreviation visitFunction :=
  (for_each_memory_function TLI Func UnknownFunc).

(** X14.  Whatever the callbacks are, traversing a function is traversing its
    basic blocks one after the other, traversing a block is visiting its
    instructions one after the other, and traversing two blocks laid end to
    end is traversing the first and then the second; an empty function or
    block leaves the state as it is. *)
Theorem traversal_by_blocks (F : FunctionBody) (BB1 BB2 : BasicBlock)
    (I : Instruction) (s : St) :
  visitFunction F s = foldl (λ s BB, visitBlock BB s) s F
  ∧ visitBlock (BB1 ++ BB2) s = visitBlock BB2 (visitBlock BB1 s)
  ∧ visitBlock (I :: BB1) s = visitBlock BB1 (visit I s)
  ∧ visitFunction (F ++ [BB1]) s = visitBlock BB1 (visitFunction F s)
  ∧ visitFunction [] s = s
  ∧ visitBlock [] s = s.
Proof.
  assert (Hblocks : ∀ F s,
            visitFunction F s = foldl (λ s BB, visitBlock BB s) s F).
  { unfold for_each_memory_function, for_each_memory_block, instructions.
    intros F'. induction F' as [|BB F' IH]; intros s'; csimpl; [done|].
    by rewrite foldl_app, IH. }
  split; [apply Hblocks|].
  split; [apply foldl_app|]. split; [done|].
  split; [|done]. by rewrite !Hblocks, foldl_app.
Qed.

(** X15.  Whatever the callbacks are, a traversal acts on the state of the
    caller as the calls of its trace do, made in order; and the trace of a
    function is the concatenation, in the order of the instructions, of the
    traces of its instructions.  So the calls made for an instruction come
    after all calls made for the instructions before it. *)
Theorem traversal_replays_trace (F : FunctionBody) (BB : BasicBlock)
    (I : Instruction) (s : St) :
  visit I s = foldl (replay Func UnknownFunc) s (accesses TLI I)
  ∧ visitBlock BB s
    = foldl (replay Func UnknownFunc) s (concat (accesses TLI <$> BB))
  ∧ visitFunction F s
    = foldl (replay Func UnknownFunc) s
        (concat (accesses TLI <$> instructions F)).
Proof.
  split; [apply for_each_memory_replay|].
  split.
  - unfold for_each_memory_block.
    by rewrite for_each_memory_list_replay, accesses_list.
  - unfold for_each_memory_function.
    by rewrite for_each_memory_list_replay, accesses_list.
Qed.
End traversal_composition.

(** ** From the enumerator to the [DefUseSet] *)

Section enumerator_to_defuse.
Context `{KnownFunctionTraits}.
Variable TLI : TargetLibraryInfo.
Context {AliasSetTracker : Type}.

(** X16.  A location that [Func] gets with read flag [Must] comes from an
    instruction that [addUse] accepts, and [addUse] on the instruction
    records that location.  A location it gets with write flag [Must] comes
    from a store, on which [addDef] records that location, or from an
    instruction that [addMayDef] accepts, recording that location, and that
    [addDef] rejects. *)
Theorem Must_accesses_are_recordable
    (DU : DefUseSet AliasSetTracker) I Inst Loc Idx r w :
  LocAccess Inst Loc Idx r w ∈ accesses TLI I →
  (r = Must → addUse_inst (Some I) DU = Done (addUse Loc DU))
  ∧ (w = Must → isa_StoreInst I = true →
     addDef_inst (Some I) DU = Done (addDef Loc DU))
  ∧ (w = Must → isa_StoreInst I = false →
     addMayDef_inst (Some I) DU = Done (addMayDef Loc DU)
     ∧ addDef_inst (Some I) DU
       = AssertionFailed
           "Only store instructions produce must defined locations!").
Proof.
  intros Hin.
  destruct (isCallOrInvoke I) eqn:Hcall.
  { destruct (call_argument_flags TLI I _ _ _ _ _ Hcall Hin) as [-> ->].
    split; [|split]; intros Hmust; exfalso; revert Hmust;
      by repeat case_match. }
  unfold addUse_inst, addDef_inst, addMayDef_inst, MemoryLocation_get_inst,
    isa_StoreInst, isCallOrInvoke in *; simpl.
  destruct (getOpcode I) as [| | | | | | |n] eqn:Hop; try discriminate.
  1-4: rewrite accesses_load in Hin by (by unfold isLoadLike; rewrite Hop);
       (destruct (isValidPtr _ _); [|by apply elem_of_nil in Hin]);
       apply list_elem_of_singleton in Hin as [= -> -> -> -> ->];
       by destruct (mayReadFromMemory I), (mayWriteToMemory I).
  - rewrite accesses_store in Hin by done.
    destruct (isValidPtr _ _); [|by apply elem_of_nil in Hin].
    by apply list_elem_of_singleton in Hin as [= -> -> -> -> ->].
  - rewrite (accesses_other TLI I n Hop) in Hin.
    destruct (mayReadOrWriteMemory I); [|by apply elem_of_nil in Hin].
    by apply list_elem_of_singleton in Hin.
Qed.
End enumerator_to_defuse.

(** ** The further properties on concrete instructions *)

Section more_samples.
Import Samples.

Local Ltac in_trace :=
  cbv; repeat first [apply list_elem_of_here | apply list_elem_of_further].

Lemma Func_gets_valid_pointers_witness :
  isValidPtr main (ptr 1) = true ∧ getKind (ptr 1) ≠ UndefValue.
Proof.
  destruct (Func_gets_valid_pointers noLibrary loadP loadP locP 0 Must No)
    as (Hvalid & Hundef & _); [in_trace|done].
Defined.

Lemma non_call_accesses_witness :
  length (accesses noLibrary storeP) ≤ 1
  ∧ locP = MemoryLocation_get storeP ∧ No ≠ May ∧ Must ≠ May.
Proof.
  destruct (non_call_accesses noLibrary storeP eq_refl) as [Hlen Hone].
  split; [exact Hlen|].
  destruct (Hone storeP locP 1 No Must) as (Hloc & _ & _ & _ & Hr & Hw);
    [in_trace|done].
Defined.

Lemma unknown_callee_accesses_witness :
  accesses noLibrary callG
  = [LocAccess callG (mkLoc (ptr 1) 8 0) 0 May May;
     LocAccess callG (mkLoc (ptr 2) 8 0) 2 May May;
     UnknownAccess callG May May].
Proof.
  rewrite (unknown_callee_accesses noLibrary callG eq_refl eq_refl eq_refl).
  by vm_compute.
Defined.


Lemma Must_accesses_are_recordable_witness :
  addUse_inst (Some atomicAdd) emptyDU = Done (addUse locP emptyDU)
  ∧ addMayDef_inst (Some atomicAdd) emptyDU = Done (addMayDef locP emptyDU)
  ∧ addDef_inst (Some storeP) emptyDU = Done (addDef locP emptyDU).
Proof.
  destruct (Must_accesses_are_recordable noLibrary emptyDU
              atomicAdd atomicAdd locP 0 Must Must) as (Huse & _ & Hmay);
    [in_trace|].
  destruct (Must_accesses_are_recordable noLibrary emptyDU
              storeP storeP locP 1 No Must) as (_ & Hdef & _);
    [in_trace|].
  split; [exact (Huse eq_refl)|].
  split; [exact (proj1 (Hmay eq_refl eq_refl))|exact (Hdef eq_refl eq_refl)].
Defined.
End more_samples.
